(** * Realtime notifications over GraphQL: the server's resolvers

    A shallow embedding of the GraphQL server of
    realtime-notifications-apollo-graphql (the final [index.js]: the
    module-level [notifications] array, the [pubsub] broker, the fixed topic
    and the three resolvers), and the properties of its store and of its
    publish/subscribe fan-out. *)

From Stdlib Require Import ZArith Lia.
From stdpp Require Import base option list strings.

(** ** Data model *)

(** [type Notification { label: String }]; the resolver builds
    [{ label: args.label }]. *)
Record Notification : Type := { label : string }.

(** The object handed to [pubsub.publish]:
    [{ newNotification: newNotification }]. The subscription field
    [newNotification] of the schema is resolved from it by reading that
    property. *)
Record Payload : Type := { newNotification : Notification }.

Definition Topic : Type := string.

(** [const NOTIFICATION_SUBSCRIPTION_TOPIC = 'newNotifications';] *)
Definition NOTIFICATION_SUBSCRIPTION_TOPIC : Topic := "newNotifications"%string.

(** ** The topic broker *)

Module PubSub.

(** Modelled from the spec: the topic broker, which the program obtains
    with [new PubSub()] from the graphql-subscriptions package; its
    implementation is not part of the sources. A subscriber channel has
    the topic it was registered under, a delivery queue (oldest event
    first) and a liveness flag. *)
Record Channel : Type :=
  { chan_topic : Topic;
    chan_queue : list Payload;
    chan_live : bool }.

(** Modelled from the spec: the broker owns every channel it ever
    created; a handle is the channel's position. The registry of a topic
    is the set of its live channels. *)
Abbreviation t := (list Channel).

(** [new PubSub()] *)
Definition create : t := [].

Definition registered (topic : Topic) (c : Channel) : bool :=
  chan_live c && String.eqb (chan_topic c) topic.

Definition enqueue (e : Payload) (c : Channel) : Channel :=
  {| chan_topic := chan_topic c;
     chan_queue := chan_queue c ++ [e];
     chan_live := chan_live c |}.

Definition deliver (topic : Topic) (e : Payload) (c : Channel) : Channel :=
  if registered topic c then enqueue e c else c.

(** Modelled from the spec: [publish(topic, event)] delivers the event to
    every channel currently registered on the topic, each independently
    of the others; with no channel registered it does nothing. *)
Definition publish (topic : Topic) (e : Payload) (b : t) : t :=
  deliver topic e <$> b.

Definition fresh (topic : Topic) : Channel :=
  {| chan_topic := topic; chan_queue := []; chan_live := true |}.

(** Modelled from the spec: [subscribe(topic)], which the program calls
    as [pubsub.asyncIterator(topic)], creates a channel with no backlog,
    registers it and returns its handle. *)
Definition asyncIterator (topic : Topic) (b : t) : nat * t :=
  (List.length b, b ++ [fresh topic]).

Definition close (c : Channel) : Channel :=
  {| chan_topic := chan_topic c;
     chan_queue := chan_queue c;
     chan_live := false |}.

(** Modelled from the spec: [unsubscribe(handle)] deregisters the
    channel; on a channel already gone, or a handle never issued, it does
    nothing and raises nothing. *)
Definition unsubscribe (h : nat) (b : t) : t := alter close h b.

(** The handles registered on a topic, in registration order. *)
Definition registry (topic : Topic) (b : t) : list nat :=
  filter (fun h => from_option (registered topic) false (b !! h) = true)
         (seq 0 (List.length b)).

(** What the consumer of a channel has been handed so far. *)
Definition queue (h : nat) (b : t) : list Payload :=
  from_option chan_queue [] (b !! h).

Definition live (h : nat) (b : t) : bool :=
  from_option chan_live false (b !! h).

End PubSub.

(** ** The server's state and its effects *)

(** [const notifications = [];] and [const pubsub = new PubSub();] are the
    two module-level objects the resolvers close over. *)
Record Server : Type :=
  { notifications : list Notification;
    pubsub : PubSub.t }.

Definition init : Server :=
  {| notifications := []; pubsub := PubSub.create |}.

(** The calls a resolver makes on the two shared objects, in program
    order. *)
Inductive Effect : Type :=
| ArrayPush (n : Notification)
| Publish (topic : Topic) (p : Payload)
| AsyncIterator (topic : Topic) (h : nat)
| Return (h : nat).

(** A resolver is a state transformer that also logs its calls. *)
Definition M (A : Type) : Type := Server -> A * Server * list Effect.

Definition ret {A} (a : A) : M A := fun s => (a, s, []).

Definition bind {A B} (m : M A) (k : A -> M B) : M B :=
  fun s =>
    let '(a, s1, w1) := m s in
    let '(b, s2, w2) := k a s1 in
    (b, s2, w1 ++ w2).

Declare Scope resolver_scope.
Delimit Scope resolver_scope with resolver.
Notation "x <- m ;; k" := (bind m (fun x => k))
  (at level 100, m at next level, right associativity) : resolver_scope.
Notation "m ;;; k" := (bind m (fun _ => k))
  (at level 100, right associativity) : resolver_scope.

Definition result {A} (r : A * Server * list Effect) : A := r.1.1.
Definition state {A} (r : A * Server * list Effect) : Server := r.1.2.
Definition effects {A} (r : A * Server * list Effect) : list Effect := r.2.

(** [notifications] read as a value. *)
Definition read_notifications : M (list Notification) :=
  fun s => (notifications s, s, []).

(** [notifications.push(n)] *)
Definition notifications_push (n : Notification) : M unit :=
  fun s =>
    (tt,
     {| notifications := notifications s ++ [n]; pubsub := pubsub s |},
     [ArrayPush n]).

(** [pubsub.publish(topic, payload)] *)
Definition pubsub_publish (topic : Topic) (p : Payload) : M unit :=
  fun s =>
    (tt,
     {| notifications := notifications s;
        pubsub := PubSub.publish topic p (pubsub s) |},
     [Publish topic p]).

(** [pubsub.asyncIterator(topic)] *)
Definition pubsub_asyncIterator (topic : Topic) : M nat :=
  fun s =>
    let '(h, b) := PubSub.asyncIterator topic (pubsub s) in
    (h, {| notifications := notifications s; pubsub := b |},
     [AsyncIterator topic h]).

(** The transport ending a subscription: the iterator's [return()]. *)
Definition pubsub_return (h : nat) : M unit :=
  fun s =>
    (tt,
     {| notifications := notifications s;
        pubsub := PubSub.unsubscribe h (pubsub s) |},
     [Return h]).

(** ** The resolvers *)

(** The [args] object of [pushNotification], after the schema's coercion
    of [label: String!]. *)
Record Args : Type := { args_label : string }.

Module Query.
(** [notifications: () => notifications] *)
Definition notifications : M (list Notification) := read_notifications.
End Query.

Module Mutation.
(** [[
    pushNotification: (root, args) => {
      const newNotification = { label: args.label };
      notifications.push(newNotification);
      pubsub.publish(NOTIFICATION_SUBSCRIPTION_TOPIC,
                     { newNotification: newNotification });
      return newNotification;
    }
    ]] *)
Definition pushNotification (args : Args) : M Notification :=
  (let newNotification := {| label := args_label args |} in
   notifications_push newNotification ;;;
   pubsub_publish NOTIFICATION_SUBSCRIPTION_TOPIC
                  {| newNotification := newNotification |} ;;;
   ret newNotification)%resolver.
End Mutation.

Module Subscription.
(** [newNotification: { subscribe: () =>
      pubsub.asyncIterator(NOTIFICATION_SUBSCRIPTION_TOPIC) }] *)
Definition subscribe : M nat :=
  pubsub_asyncIterator NOTIFICATION_SUBSCRIPTION_TOPIC.
End Subscription.


(** ** The schema layer and the gateway *)

(** An argument value as the client wrote it. *)
Inductive GValue : Type :=
| GNull
| GInt (z : Z)
| GString (s : string)
| GBoolean (b : bool)
| GEnum (name : string).

(** A request-level error: the request is answered with [errors] and no
    resolver runs. *)
Inductive RequestError : Type :=
| ArgumentRequired (arg : string)
| ExpectedType (ty : string) (found : GValue).

(** [pushNotification(label: String!)]: the executable schema hands the
    resolver an [args] object only when [label] is present and a string;
    the empty string is a string. *)
Definition coerce_args (v : option GValue) : RequestError + Args :=
  match v with
  | None => inl (ArgumentRequired "label")
  | Some (GString s) => inr {| args_label := s |}
  | Some v => inl (ExpectedType "String!" v)
  end.

(** What reaches the server: the three operations of the schema, and the
    transport reporting that the client of a subscription is gone. *)
Inductive Request : Type :=
| QueryNotifications
| PushNotification (label : option GValue)
| SubscribeNewNotification
| Disconnect (h : nat).

Inductive Response : Type :=
| DataNotifications (l : list Notification)
| DataPushNotification (n : Notification)
| Errors (e : RequestError)
| Stream (h : nat)
| Closed.

Definition execute (r : Request) : M Response :=
  match r with
  | QueryNotifications =>
      (l <- Query.notifications ;; ret (DataNotifications l))%resolver
  | PushNotification v =>
      match coerce_args v with
      | inl e => ret (Errors e)
      | inr args =>
          (n <- Mutation.pushNotification args ;;
           ret (DataPushNotification n))%resolver
      end
  | SubscribeNewNotification =>
      (h <- Subscription.subscribe ;; ret (Stream h))%resolver
  | Disconnect h =>
      (pubsub_return h ;;; ret Closed)%resolver
  end.

(** The server handles its requests one at a time, each to completion. *)
Fixpoint serve (rs : list Request) : M (list Response) :=
  match rs with
  | [] => ret []
  | r :: rs' =>
      (x <- execute r ;; xs <- serve rs' ;; ret (x :: xs))%resolver
  end.

(** ** Observations *)

(** A successful [pushNotification(label)] request. *)
Definition push (l : string) : Request := PushNotification (Some (GString l)).

Definition is_error (r : Response) : bool :=
  match r with Errors _ => true | _ => false end.

(** The notification a request appends, if it appends one. *)
Definition appends (r : Request) : option Notification :=
  match r with
  | PushNotification v =>
      match coerce_args v with
      | inr args => Some {| label := args_label args |}
      | inl _ => None
      end
  | _ => None
  end.

(** The notifications a run of requests appends, in request order. *)
Definition appended (rs : list Request) : list Notification :=
  omap appends rs.

(** The events handed to the broker, in call order. *)
Definition published (w : list Effect) : list (Topic * Payload) :=
  omap (fun e => match e with Publish t p => Some (t, p) | _ => None end) w.

(** The notifications pushed onto the array, in call order. *)
Definition pushed (w : list Effect) : list Notification :=
  omap (fun e => match e with ArrayPush n => Some n | _ => None end) w.

(** The topics the broker was called with. *)
Definition topics (w : list Effect) : list Topic :=
  omap (fun e => match e with
                 | Publish t _ | AsyncIterator t _ => Some t
                 | _ => None
                 end) w.

(** What the client of subscription [h] has been sent: the
    [newNotification] field of each payload its channel was handed. *)
Definition observed (h : nat) (s : Server) : list Notification :=
  newNotification <$> PubSub.queue h (pubsub s).

Definition active (h : nat) (s : Server) : bool := PubSub.live h (pubsub s).

(** The requests up to the one that ends subscription [h]. *)
Fixpoint until_disconnect (h : nat) (rs : list Request) : list Request :=
  match rs with
  | [] => []
  | Disconnect h' :: rs' =>
      if Nat.eqb h h' then [] else Disconnect h' :: until_disconnect h rs'
  | r :: rs' => r :: until_disconnect h rs'
  end.

(** No request of [rs] ends subscription [h]. *)
Definition stays (h : nat) (rs : list Request) : bool :=
  forallb (fun r => match r with
                    | Disconnect h' => negb (Nat.eqb h h')
                    | _ => true
                    end) rs.

(** How one request changes one channel of the broker. *)
Definition channel_step (r : Request) (h : nat) (c : PubSub.Channel)
  : PubSub.Channel :=
  match r with
  | PushNotification v =>
      match coerce_args v with
      | inr args =>
          PubSub.deliver NOTIFICATION_SUBSCRIPTION_TOPIC
            {| newNotification := {| label := args_label args |} |} c
      | inl _ => c
      end
  | Disconnect h' => if Nat.eqb h h' then PubSub.close c else c
  | _ => c
  end.

(** Every channel of the broker is on the fixed topic. *)
Definition single_topic (b : PubSub.t) : Prop :=
  Forall (fun c => PubSub.chan_topic c = NOTIFICATION_SUBSCRIPTION_TOPIC) b.

(** ** The server before subscriptions *)

(** The second version of [index.js]: the same array, query and mutation,
    with no broker, no [Subscription] type and no WebSocket endpoint. *)
Module V2.

Inductive Request : Type :=
| QueryNotifications
| PushNotification (label : option GValue).

(** The only shared object is [const notifications = [];]. *)
Definition M (A : Type) : Type := list Notification -> A * list Notification.

Module Query.
(** [notifications: () => notifications] *)
Definition notifications : M (list Notification) := fun ns => (ns, ns).
End Query.

Module Mutation.
(** [[
    pushNotification: (root, args) => {
      const newNotification = { label: args.label };
      notifications.push(newNotification);
      return newNotification;
    }
    ]] *)
Definition pushNotification (args : Args) : M Notification :=
  fun ns =>
    let newNotification := {| label := args_label args |} in
    (newNotification, ns ++ [newNotification]).
End Mutation.

Definition execute (r : Request) : M Response :=
  fun ns =>
    match r with
    | QueryNotifications =>
        let '(l, ns') := Query.notifications ns in (DataNotifications l, ns')
    | PushNotification v =>
        match coerce_args v with
        | inl e => (Errors e, ns)
        | inr args =>
            let '(n, ns') := Mutation.pushNotification args ns in
            (DataPushNotification n, ns')
        end
    end.

Fixpoint serve (rs : list Request) : M (list Response) :=
  fun ns =>
    match rs with
    | [] => ([], ns)
    | r :: rs' =>
        let '(x, ns1) := execute r ns in
        let '(xs, ns2) := serve rs' ns1 in
        (x :: xs, ns2)
    end.

End V2.

(** The requests of the final server that the second version also takes. *)
Definition to_v2 (r : Request) : option V2.Request :=
  match r with
  | QueryNotifications => Some V2.QueryNotifications
  | PushNotification v => Some (V2.PushNotification v)
  | SubscribeNewNotification | Disconnect _ => None
  end.

(** The answers to a query or a mutation. *)
Definition answers_operation (r : Response) : bool :=
  match r with
  | DataNotifications _ | DataPushNotification _ | Errors _ => true
  | Stream _ | Closed => false
  end.

(** ** The web application *)

(** The [PushNotification] component of [PushNotification.js]. *)
Module PushNotification.

(** [state = { label: '' }] *)
Record State : Type := { label : string }.

Definition initial : State := {| label := EmptyString |}.

(** [variables: { label }] *)
Record Variables : Type := { var_label : string }.

(** How the promise of [this.props.pushNotificationMutation] settles. *)
Inductive Outcome : Type := Resolved | Rejected.

(** An [async] function stopped at its [await]: the mutation it called and
    the rest of its body, which [setState]s the component's state once the
    promise has settled. *)
Inductive Async : Type :=
| Await (variables : Variables) (k : Outcome -> State -> State).

Definition variables_of (a : Async) : Variables :=
  match a with Await v _ => v end.

Definition resume (a : Async) : Outcome -> State -> State :=
  match a with Await _ k => k end.

(** [onChange={e => this.setState({ label: e.target.value })}] *)
Definition onChange (value : string) (st : State) : State :=
  {| label := value |}.

(** [[
    _pushNotification = async () => {
      const { label } = this.state
      await this.props.pushNotificationMutation({ variables: { label } })
      this.setState({ label: '' });
    }
    ]]
    A rejected promise is thrown at the [await], so the [setState] after it
    is not reached. *)
Definition _pushNotification (st : State) : Async :=
  let label := label st in
  Await {| var_label := label |}
        (fun outcome st' =>
           match outcome with
           | Resolved => {| label := EmptyString |}
           | Rejected => st'
           end).

End PushNotification.

(** [[
    mutation PushNotificationMutation($label: String!){
      pushNotification(label: $label) { label }
    }
    ]]
    with its variables: the request the server receives. *)
Definition POST_MUTATION (v : PushNotification.Variables) : Request :=
  PushNotification (Some (GString (PushNotification.var_label v))).

(** The promise of a mutation resolves with the server's answer unless the
    answer carries errors. *)
Definition settle (r : Response) : PushNotification.Outcome :=
  if is_error r then PushNotification.Rejected else PushNotification.Resolved.

(** One page of the application and the server it talks to: the server,
    the state of the page's [PushNotification] component, and the calls of
    [_pushNotification] waiting for their answer, oldest first. *)
Record System : Type :=
  { server : Server;
    component : PushNotification.State;
    inflight : list PushNotification.Async }.

(** What can happen: the user edits the input; the user clicks Submit; the
    request of the [i]-th waiting call reaches the server and its answer
    comes back; that request is lost on the way; the server handles a
    request of another client. *)
Inductive Event : Type :=
| Edit (value : string)
| Click
| Arrive (i : nat)
| Fail (i : nat)
| Remote (r : Request).

Definition client_step (e : Event) (sys : System) : System :=
  match e with
  | Edit value =>
      {| server := server sys;
         component := PushNotification.onChange value (component sys);
         inflight := inflight sys |}
  | Click =>
      {| server := server sys;
         component := component sys;
         inflight := inflight sys
                     ++ [PushNotification._pushNotification (component sys)] |}
  | Arrive i =>
      match inflight sys !! i with
      | None => sys
      | Some a =>
          let r := execute (POST_MUTATION (PushNotification.variables_of a))
                           (server sys) in
          {| server := state r;
             component := PushNotification.resume a (settle (result r))
                                                  (component sys);
             inflight := delete i (inflight sys) |}
      end
  | Fail i =>
      match inflight sys !! i with
      | None => sys
      | Some a =>
          {| server := server sys;
             component := PushNotification.resume a PushNotification.Rejected
                                                  (component sys);
             inflight := delete i (inflight sys) |}
      end
  | Remote r =>
      {| server := state (execute r (server sys));
         component := component sys;
         inflight := inflight sys |}
  end.

Fixpoint client_run (es : list Event) (sys : System) : System :=
  match es with
  | [] => sys
  | e :: es' => client_run es' (client_step e sys)
  end.

(** The request an event makes the server handle, if any. *)
Definition request_of (e : Event) (sys : System) : option Request :=
  match e with
  | Arrive i =>
      (fun a => POST_MUTATION (PushNotification.variables_of a))
        <$> inflight sys !! i
  | Remote r => Some r
  | Edit _ | Click | Fail _ => None
  end.

(** The requests the server handles over a run of events, in order. *)
Fixpoint requests (es : list Event) (sys : System) : list Request :=
  match es with
  | [] => []
  | e :: es' => option_list (request_of e sys) ++ requests es' (client_step e sys)
  end.

(** The text in the input at each click of a run, in click order. *)
Fixpoint clicked (es : list Event) (sys : System) : list string :=
  match es with
  | [] => []
  | e :: es' =>
      match e with
      | Click => [PushNotification.label (component sys)]
      | _ => []
      end ++ clicked es' (client_step e sys)
  end.

(** The labels of the waiting calls that a run of events settles, by an
    answer or by a loss, in the order they settle. *)
Fixpoint settled (es : list Event) (sys : System) : list string :=
  match es with
  | [] => []
  | e :: es' =>
      match e with
      | Arrive i | Fail i =>
          option_list
            ((fun a => PushNotification.var_label (PushNotification.variables_of a))
               <$> inflight sys !! i)
      | _ => []
      end ++ settled es' (client_step e sys)
  end.

Definition waiting (sys : System) : list string :=
  (fun a => PushNotification.var_label (PushNotification.variables_of a))
    <$> inflight sys.

(** The [App] component of [App.js], wrapped with the [newNotification]
    subscription. *)
Module App.

(** [props.data]: [newNotification] is [undefined] until the subscription
    has delivered. *)
Record Data : Type := { newNotification : option Notification }.

Record Props : Type := { data : Data }.

Inductive TypeError : Type := CannotDestructure (property : string).

(** [[
    componentWillReceiveProps({ data: { newNotification: { label } } }) {
      toast(label);
    }
    ]]
    The answer is the list of [toast] calls; destructuring [undefined]
    throws. *)
Definition componentWillReceiveProps (nextProps : Props)
  : TypeError + list string :=
  match newNotification (data nextProps) with
  | Some n => inr [label n]
  | None => inl (CannotDestructure "label")
  end.

End App.

(** The props the wrapped component receives for one delivered payload. *)
Definition props_of (p : Payload) : App.Props :=
  {| App.data := {| App.newNotification := Some (newNotification p) |} |}.

(** The toasts shown over successive props, unless one of them throws. *)
Fixpoint toasts (ps : list App.Props) : App.TypeError + list string :=
  match ps with
  | [] => inr []
  | p :: ps' =>
      match App.componentWillReceiveProps p with
      | inl e => inl e
      | inr ts =>
          match toasts ps' with
          | inl e => inl e
          | inr ts' => inr (ts ++ ts')
          end
      end
  end.

(** ** Basic facts *)

Lemma execute_notifications r s :
  notifications (state (execute r s)) = notifications s ++ option_list (appends r).
Proof.
  destruct r as [|v| |h]; cbn; rewrite ?app_nil_r; try done.
  destruct (coerce_args v); cbn; by rewrite ?app_nil_r.
Qed.

Lemma bind_state {A B} (m : M A) (k : A -> M B) s :
  state (bind m k s) = state (k (result (m s)) (state (m s))).
Proof.
  unfold bind, state, result. destruct (m s) as [[a s1] w1]; cbn.
  by destruct (k a s1) as [[b s2] w2].
Qed.

Lemma bind_effects {A B} (m : M A) (k : A -> M B) s :
  effects (bind m k s)
  = effects (m s) ++ effects (k (result (m s)) (state (m s))).
Proof.
  unfold bind, state, result, effects. destruct (m s) as [[a s1] w1]; cbn.
  by destruct (k a s1) as [[b s2] w2].
Qed.

Lemma bind_result {A B} (m : M A) (k : A -> M B) s :
  result (bind m k s) = result (k (result (m s)) (state (m s))).
Proof.
  unfold bind, state, result. destruct (m s) as [[a s1] w1]; cbn.
  by destruct (k a s1) as [[b s2] w2].
Qed.

Lemma serve_cons_state r rs s :
  state (serve (r :: rs) s) = state (serve rs (state (execute r s))).
Proof. cbn [serve]. by rewrite !bind_state. Qed.

Lemma serve_cons_effects r rs s :
  effects (serve (r :: rs) s)
  = effects (execute r s) ++ effects (serve rs (state (execute r s))).
Proof.
  cbn [serve]. rewrite !bind_effects. cbn. by rewrite app_nil_r.
Qed.

Lemma serve_cons_result r rs s :
  result (serve (r :: rs) s)
  = result (execute r s) :: result (serve rs (state (execute r s))).
Proof. cbn [serve]. by rewrite !bind_result. Qed.

Lemma serve_app_state rs1 rs2 s :
  state (serve (rs1 ++ rs2) s) = state (serve rs2 (state (serve rs1 s))).
Proof.
  revert s. induction rs1 as [|r rs1 IH]; intros s; [done|].
  rewrite <- app_comm_cons, !serve_cons_state. apply IH.
Qed.

Lemma serve_notifications rs s :
  notifications (state (serve rs s)) = notifications s ++ appended rs.
Proof.
  revert s. induction rs as [|r rs IH]; intros s.
  - cbn. by rewrite app_nil_r.
  - rewrite serve_cons_state, IH, execute_notifications, <- app_assoc.
    f_equal. unfold appended. cbn. by destruct (appends r).
Qed.

Lemma execute_effects r s :
  published (effects (execute r s))
  = (fun n => (NOTIFICATION_SUBSCRIPTION_TOPIC, {| newNotification := n |}))
      <$> option_list (appends r)
  /\ pushed (effects (execute r s)) = option_list (appends r).
Proof.
  destruct r as [|v| |h]; cbn; try done.
  destruct (coerce_args v); cbn; done.
Qed.

Lemma published_app w1 w2 : published (w1 ++ w2) = published w1 ++ published w2.
Proof. apply omap_app. Qed.

Lemma pushed_app w1 w2 : pushed (w1 ++ w2) = pushed w1 ++ pushed w2.
Proof. apply omap_app. Qed.

Lemma topics_app w1 w2 : topics (w1 ++ w2) = topics w1 ++ topics w2.
Proof. apply omap_app. Qed.

Lemma appended_cons r rs : appended (r :: rs) = option_list (appends r) ++ appended rs.
Proof. unfold appended. cbn. by destruct (appends r). Qed.

Lemma serve_published rs s :
  published (effects (serve rs s))
  = (fun n => (NOTIFICATION_SUBSCRIPTION_TOPIC, {| newNotification := n |}))
      <$> appended rs.
Proof.
  revert s. induction rs as [|r rs IH]; intros s; [done|].
  rewrite serve_cons_effects, published_app, IH, appended_cons, fmap_app.
  f_equal. apply execute_effects.
Qed.

Lemma serve_pushed rs s : pushed (effects (serve rs s)) = appended rs.
Proof.
  revert s. induction rs as [|r rs IH]; intros s; [done|].
  rewrite serve_cons_effects, pushed_app, IH, appended_cons.
  f_equal. apply execute_effects.
Qed.

(** *** One channel through a run *)

Lemma execute_channel r s h c :
  pubsub s !! h = Some c ->
  pubsub (state (execute r s)) !! h = Some (channel_step r h c).
Proof.
  intros Hc. destruct r as [|v| |h']; cbn; try done.
  - destruct (coerce_args v); cbn; [done|].
    unfold PubSub.publish. by rewrite list_lookup_fmap, Hc.
  - by apply lookup_app_l_Some.
  - unfold PubSub.unsubscribe. destruct (Nat.eqb_spec h h') as [->|Hne].
    + by rewrite list_lookup_alter, decide_True, Hc by done.
    + by rewrite list_lookup_alter_ne.
Qed.

Lemma channel_step_topic r h c :
  PubSub.chan_topic (channel_step r h c) = PubSub.chan_topic c.
Proof.
  destruct r as [|v| |h']; cbn; try done.
  - destruct (coerce_args v); [done|]. unfold PubSub.deliver.
    by destruct (PubSub.registered _ c).
  - by destruct (Nat.eqb h h').
Qed.

Lemma channel_step_closed r h c :
  PubSub.chan_live c = false ->
  PubSub.chan_live (channel_step r h c) = false
  /\ PubSub.chan_queue (channel_step r h c) = PubSub.chan_queue c.
Proof.
  intros Hl. destruct r as [|v| |h']; cbn; try done.
  - destruct (coerce_args v); [done|]. unfold PubSub.deliver, PubSub.registered.
    by rewrite Hl.
  - by destruct (Nat.eqb h h').
Qed.

Lemma channel_step_open r h c :
  PubSub.chan_live c = true ->
  PubSub.chan_topic c = NOTIFICATION_SUBSCRIPTION_TOPIC ->
  PubSub.chan_queue (channel_step r h c)
  = PubSub.chan_queue c
    ++ ((fun n => {| newNotification := n |}) <$> option_list (appends r))
  /\ PubSub.chan_live (channel_step r h c)
     = match r with Disconnect h' => negb (Nat.eqb h h') | _ => true end.
Proof.
  intros Hl Ht. destruct r as [|v| |h']; cbn; rewrite ?app_nil_r; try done.
  - destruct (coerce_args v); cbn; rewrite ?app_nil_r; [done|].
    unfold PubSub.deliver, PubSub.registered. rewrite Hl, Ht. by cbn.
  - by destruct (Nat.eqb h h').
Qed.

Lemma observed_lookup h s c :
  pubsub s !! h = Some c -> observed h s = newNotification <$> PubSub.chan_queue c.
Proof. intros Hc. unfold observed, PubSub.queue. by rewrite Hc. Qed.

Lemma active_lookup h s c :
  pubsub s !! h = Some c -> active h s = PubSub.chan_live c.
Proof. intros Hc. unfold active, PubSub.live. by rewrite Hc. Qed.

Lemma serve_closed rs s h c :
  pubsub s !! h = Some c ->
  PubSub.chan_live c = false ->
  exists c', pubsub (state (serve rs s)) !! h = Some c'
             /\ PubSub.chan_live c' = false
             /\ PubSub.chan_queue c' = PubSub.chan_queue c.
Proof.
  revert s c. induction rs as [|r rs IH]; intros s c Hc Hl; [by exists c|].
  rewrite serve_cons_state.
  destruct (channel_step_closed r h c Hl) as [Hl' Hq'].
  destruct (IH _ _ (execute_channel r s h c Hc) Hl') as (c' & ? & ? & ?).
  exists c'. split_and!; [done|done|congruence].
Qed.

Lemma serve_open rs s h c :
  pubsub s !! h = Some c ->
  PubSub.chan_live c = true ->
  PubSub.chan_topic c = NOTIFICATION_SUBSCRIPTION_TOPIC ->
  exists c', pubsub (state (serve rs s)) !! h = Some c'
             /\ PubSub.chan_queue c'
                = PubSub.chan_queue c
                  ++ ((fun n => {| newNotification := n |})
                        <$> appended (until_disconnect h rs))
             /\ PubSub.chan_live c' = stays h rs.
Proof.
  revert s c. induction rs as [|r rs IH]; intros s c Hc Hl Ht.
  - exists c. cbn. by rewrite app_nil_r.
  - rewrite serve_cons_state.
    pose proof (execute_channel r s h c Hc) as Hc'.
    destruct (channel_step_open r h c Hl Ht) as [Hq' Hl'].
    pose proof (channel_step_topic r h c) as Ht'. rewrite Ht in Ht'.
    destruct r as [|v| |h'].
    1-3: destruct (IH _ _ Hc' Hl' Ht') as (c' & ? & Hq & ?);
         exists c'; split_and!; [done| |done];
         rewrite Hq, Hq'; cbn [until_disconnect]; rewrite appended_cons, fmap_app;
         by rewrite app_assoc.
    cbn [until_disconnect stays forallb]. destruct (Nat.eqb h h') eqn:E.
    + cbn in Hl'. destruct (serve_closed rs _ h _ Hc' Hl') as (c' & ? & ? & Hq).
      exists c'. split_and!; [done| |done].
      rewrite Hq, Hq'. by cbn.
    + destruct (IH _ _ Hc' Hl' Ht') as (c' & ? & Hq & ?).
      exists c'. split_and!; [done| |done].
      rewrite Hq, Hq'. by rewrite appended_cons, fmap_app, app_assoc.
Qed.

(** *** The fixed topic *)

Lemma execute_single_topic r s :
  single_topic (pubsub s) -> single_topic (pubsub (state (execute r s))).
Proof.
  unfold single_topic. rewrite !Forall_lookup. intros Hs h c' Hc'.
  destruct (pubsub s !! h) as [c|] eqn:Hc.
  - rewrite (execute_channel r s h c Hc) in Hc'. injection Hc' as <-.
    rewrite channel_step_topic. by eapply Hs.
  - destruct r as [|v| |h']; cbn in Hc'.
    + congruence.
    + destruct (coerce_args v); cbn in Hc'; [congruence|].
      unfold PubSub.publish in Hc'. rewrite list_lookup_fmap, Hc in Hc'. done.
    + apply lookup_ge_None in Hc.
      rewrite lookup_app_r in Hc' by done.
      apply list_lookup_singleton_Some in Hc' as [_ <-]. done.
    + unfold PubSub.unsubscribe in Hc'.
      apply lookup_ge_None in Hc.
      assert (alter PubSub.close h' (pubsub s) !! h = None) as Hn.
      { apply lookup_ge_None. by rewrite length_alter. }
      congruence.
Qed.

Lemma serve_single_topic rs s :
  single_topic (pubsub s) -> single_topic (pubsub (state (serve rs s))).
Proof.
  revert s. induction rs as [|r rs IH]; intros s Hs; [done|].
  rewrite serve_cons_state. by apply IH, execute_single_topic.
Qed.

Lemma reachable_single_topic rs : single_topic (pubsub (state (serve rs init))).
Proof. apply serve_single_topic. constructor. Qed.

Lemma execute_topics r s :
  Forall (fun t => t = NOTIFICATION_SUBSCRIPTION_TOPIC) (topics (effects (execute r s))).
Proof.
  destruct r as [|v| |h]; cbn; try by repeat constructor.
  destruct (coerce_args v); cbn; by repeat constructor.
Qed.

Lemma serve_topics rs s :
  Forall (fun t => t = NOTIFICATION_SUBSCRIPTION_TOPIC) (topics (effects (serve rs s))).
Proof.
  revert s. induction rs as [|r rs IH]; intros s; [constructor|].
  rewrite serve_cons_effects, topics_app. apply Forall_app. split.
  - apply execute_topics.
  - apply IH.
Qed.

(** In a reachable state a live channel is a registered one. *)
Lemma reachable_channel rs h c :
  pubsub (state (serve rs init)) !! h = Some c ->
  PubSub.chan_topic c = NOTIFICATION_SUBSCRIPTION_TOPIC.
Proof.
  intros Hc. pose proof (reachable_single_topic rs) as Hs.
  unfold single_topic in Hs. rewrite Forall_lookup in Hs. by eapply Hs.
Qed.

(** One mutation, seen from any handle. *)
Lemma push_observed s l h :
  single_topic (pubsub s) ->
  observed h (state (execute (push l) s))
  = observed h s ++ (if active h s then [{| label := l |}] else [])
  /\ active h (state (execute (push l) s)) = active h s.
Proof.
  intros Hs. destruct (pubsub s !! h) as [c|] eqn:Hc.
  - pose proof (execute_channel (push l) s h c Hc) as Hc'.
    rewrite (observed_lookup _ _ _ Hc'), (observed_lookup _ _ _ Hc).
    rewrite (active_lookup _ _ _ Hc'), (active_lookup _ _ _ Hc).
    unfold single_topic in Hs. rewrite Forall_lookup in Hs.
    pose proof (Hs _ _ Hc) as Ht. cbn in Ht.
    destruct (PubSub.chan_live c) eqn:Hl.
    + destruct (channel_step_open (push l) h c Hl Ht) as [-> ->].
      cbn. by rewrite fmap_app.
    + destruct (channel_step_closed (push l) h c Hl) as [-> ->].
      by rewrite app_nil_r.
  - assert (pubsub (state (execute (push l) s)) !! h = None) as Hn.
    { cbn. unfold PubSub.publish. by rewrite list_lookup_fmap, Hc. }
    unfold observed, active, PubSub.queue, PubSub.live. by rewrite Hn, Hc.
Qed.

(** ** The store *)

(** C1, as stated, fails on the empty store: [pushNotification] with the
    empty-string label is answered with the notification, not with an
    error, and the stored sequence grows from nothing to one entry. *)
Lemma empty_label_is_stored :
  result (execute (push EmptyString) init) = DataPushNotification {| label := EmptyString |}
  /\ notifications (state (execute (push EmptyString) init)) = [{| label := EmptyString |}]
  /\ ~ (is_error (result (execute (push EmptyString) init)) = true
        /\ notifications (state (execute (push EmptyString) init)) = notifications init).
Proof.
  split; [reflexivity|]. split; [reflexivity|].
  intros [Herr _]. cbn in Herr. discriminate.
Qed.

(** C1 (amended): in every state of the store, [pushNotification] with an
    empty-string label does not fail: it answers with the notification of empty label and the
    stored sequence grows by exactly that notification at its end. What
    fails is a request whose label is missing or null, which the schema's
    [String!] rejects with a request-level error before the resolver runs,
    leaving the stored sequence unchanged. *)
Theorem empty_label_accepted (s : Server) :
  (result (execute (push EmptyString) s) = DataPushNotification {| label := EmptyString |}
   /\ notifications (state (execute (push EmptyString) s))
      = notifications s ++ [{| label := EmptyString |}])
  /\ (is_error (result (execute (PushNotification None) s)) = true
      /\ notifications (state (execute (PushNotification None) s))
         = notifications s)
  /\ (is_error (result (execute (PushNotification (Some GNull)) s)) = true
      /\ notifications (state (execute (PushNotification (Some GNull)) s))
         = notifications s).
Proof. repeat split. Qed.

(** C2: after any finite sequence of successful appends with labels
    [l1 .. ln] from the empty store, the [notifications] query answers
    exactly [{label: l1} .. {label: ln}], in insertion order; every one of
    those appends succeeded; and the query changes neither the store nor
    the broker and calls nothing. More generally, whatever requests the
    server has handled, the query answers the notifications they appended,
    in request order. *)
Theorem notifications_in_insertion_order (ls : list string) (rs : list Request) :
  let s := state (serve (push <$> ls) init) in
  result (Query.notifications s) = Build_Notification <$> ls
  /\ result (serve (push <$> ls) init)
     = (fun l => DataPushNotification {| label := l |}) <$> ls
  /\ state (Query.notifications s) = s
  /\ effects (Query.notifications s) = []
  /\ result (Query.notifications (state (serve rs init))) = appended rs.
Proof.
  cbn zeta. split_and!; try done.
  - change (notifications (state (serve (push <$> ls) init))
            = Build_Notification <$> ls).
    rewrite serve_notifications. cbn. unfold appended.
    induction ls as [|l ls IH]; [done|]. cbn. by rewrite IH.
  - generalize init. induction ls as [|l ls IH]; intros s; [done|].
    rewrite fmap_cons, serve_cons_result, IH. done.
  - change (notifications (state (serve rs init)) = appended rs).
    by rewrite serve_notifications.
Qed.

(** C9: for every string label, the empty string included, the resolver
    succeeds; the schema hands it the label as written; the label is
    stored verbatim; and the notification appended to the array, the one
    carried by the published payload and the one returned are the same
    [{label: label}]. *)
Theorem pushNotification_verbatim (s : Server) (l : string) :
  let r := Mutation.pushNotification {| args_label := l |} s in
  coerce_args (Some (GString l)) = inr {| args_label := l |}
  /\ result r = {| label := l |}
  /\ label (result r) = l
  /\ notifications (state r) = notifications s ++ [result r]
  /\ effects r
     = [ArrayPush (result r);
        Publish NOTIFICATION_SUBSCRIPTION_TOPIC
                {| newNotification := result r |}]
  /\ result (execute (push l) s) = DataPushNotification (result r)
  /\ result (execute (push EmptyString) s) = DataPushNotification {| label := EmptyString |}.
Proof. cbn zeta. by split_and!. Qed.

(** C8: whenever a [pushNotification] request is answered with a
    request-level error, the stored sequence and the broker (its registry
    and every channel's queue) are exactly as before the call, and neither
    [push] nor [publish] was called. *)
Theorem failed_mutation_changes_nothing (s : Server) (v : option GValue) :
  is_error (result (execute (PushNotification v) s)) = true ->
  state (execute (PushNotification v) s) = s
  /\ effects (execute (PushNotification v) s) = [].
Proof.
  cbn. destruct (coerce_args v) as [e|args]; cbn; [done|discriminate].
Qed.

Lemma failed_mutation_changes_nothing_witness :
  let s := state (serve [SubscribeNewNotification; push "hello"] init) in
  is_error (result (execute (PushNotification (Some GNull)) s)) = true
  /\ state (execute (PushNotification (Some GNull)) s) = s
  /\ effects (execute (PushNotification (Some GNull)) s) = [].
Proof.
  split; [reflexivity|].
  apply (failed_mutation_changes_nothing
           (state (serve [SubscribeNewNotification; push "hello"] init))
           (Some GNull)).
  reflexivity.
Defined.

(** C4: every successful mutation calls [push] and then, with nothing in
    between, [publish] exactly once with the same notification on the
    fixed topic, whatever the state, so also with no subscriber
    registered; its answer is the notification whatever the broker holds;
    and over any run of the server the events handed to the broker are,
    in order, the notifications of the store. *)
Theorem publish_follows_append (rs : list Request) (s : Server) (l : string) :
  effects (execute (push l) s)
  = [ArrayPush {| label := l |};
     Publish NOTIFICATION_SUBSCRIPTION_TOPIC
             {| newNotification := {| label := l |} |}]
  /\ result (execute (push l) s) = DataPushNotification {| label := l |}
  /\ effects (execute (push l)
                {| notifications := notifications s; pubsub := PubSub.create |})
     = effects (execute (push l) s)
  /\ published (effects (serve rs init))
     = (fun n => (NOTIFICATION_SUBSCRIPTION_TOPIC, {| newNotification := n |}))
         <$> notifications (state (serve rs init))
  /\ pushed (effects (serve rs init)) = notifications (state (serve rs init)).
Proof.
  split_and!; try done.
  - by rewrite serve_published, serve_notifications.
  - by rewrite serve_pushed, serve_notifications.
Qed.

(** C3: in any reachable state and for every string label, a
    [pushNotification(label)] request is answered with [{label: label}];
    every subscription active at that moment is sent exactly that
    notification next (and an ended one nothing); and a following
    [notifications] query answers the former sequence with
    [{label: label}] appended at its end. In particular, with one
    subscription open on the fresh server, [pushNotification("hello")] is
    answered with [{label: "hello"}], the subscription receives it, and
    the query then answers [[{label: "hello"}]]. *)
Theorem pushNotification_end_to_end (rs : list Request) (l : string) (h : nat) :
  let s := state (serve rs init) in
  let r := execute (push l) s in
  result r = DataPushNotification {| label := l |}
  /\ observed h (state r)
     = observed h s ++ (if active h s then [{| label := l |}] else [])
  /\ result (Query.notifications (state r))
     = result (Query.notifications s) ++ [{| label := l |}]
  /\ (let t := serve [SubscribeNewNotification; push "hello"; QueryNotifications]
                     init in
      result t = [Stream 0;
                  DataPushNotification {| label := "hello" |};
                  DataNotifications [{| label := "hello" |}]]
      /\ observed 0 (state t) = [{| label := "hello" |}]).
Proof.
  cbn zeta. split_and!; try done.
  apply push_observed, reachable_single_topic.
Qed.

(** ** The broker *)

Lemma subscribe_channel s :
  pubsub (state (Subscription.subscribe s)) !! result (Subscription.subscribe s)
  = Some (PubSub.fresh NOTIFICATION_SUBSCRIPTION_TOPIC).
Proof. cbn. by rewrite lookup_app_r, Nat.sub_diag. Qed.

Lemma subscribe_fresh_handle s :
  pubsub s !! result (Subscription.subscribe s) = None.
Proof. cbn. by apply lookup_ge_None. Qed.

Lemma until_disconnect_stays h rs :
  stays h rs = true -> until_disconnect h rs = rs.
Proof.
  induction rs as [|r rs IH]; [done|]. cbn.
  destruct r as [|v| |h']; cbn; try (intros; f_equal; auto).
  destruct (Nat.eqb h h'); cbn; [done|]. intros. f_equal. auto.
Qed.

Lemma until_disconnect_prefix h rs : until_disconnect h rs `prefix_of` rs.
Proof.
  induction rs as [|r rs IH]; [done|]. cbn.
  destruct r as [|v| |h']; try by apply prefix_cons.
  destruct (Nat.eqb h h'); [apply prefix_nil|by apply prefix_cons].
Qed.

Lemma appended_prefix rs1 rs2 :
  rs1 `prefix_of` rs2 -> appended rs1 `prefix_of` appended rs2.
Proof.
  intros [rest ->]. unfold appended. rewrite omap_app. by apply prefix_app_r.
Qed.

(** What a subscription opened in state [s] has been sent after the
    server went on to handle [rs]. *)
Lemma subscription_observed s rs :
  let h := result (Subscription.subscribe s) in
  let s' := state (serve rs (state (Subscription.subscribe s))) in
  observed h s' = appended (until_disconnect h rs)
  /\ active h s' = stays h rs.
Proof.
  cbn zeta.
  destruct (serve_open rs _ _ _ (subscribe_channel s) eq_refl eq_refl)
    as (c' & Hc' & Hq & Hl).
  rewrite (observed_lookup _ _ _ Hc'), (active_lookup _ _ _ Hc'), Hq, Hl.
  split; [|done]. cbn. rewrite <- list_fmap_compose.
  by rewrite list_fmap_id.
Qed.

(** C5: a subscription on the fixed topic that is opened in any reachable
    state and is not ended by the requests that follow is sent exactly the
    notifications those requests publish: each one once, none dropped,
    none repeated, in publication order, which is also the order the store
    appended them in. *)
Theorem subscriber_observes_every_event_once
        (rs0 rs : list Request) :
  let s0 := state (serve rs0 init) in
  let h := result (Subscription.subscribe s0) in
  let s1 := state (Subscription.subscribe s0) in
  stays h rs = true ->
  observed h (state (serve rs s1)) = appended rs
  /\ published (effects (serve rs s1))
     = (fun n => (NOTIFICATION_SUBSCRIPTION_TOPIC, {| newNotification := n |}))
         <$> observed h (state (serve rs s1))
  /\ notifications (state (serve rs s1))
     = notifications s1 ++ observed h (state (serve rs s1)).
Proof.
  cbn zeta. intros Hstay.
  destruct (subscription_observed (state (serve rs0 init)) rs) as [Ho _].
  rewrite (until_disconnect_stays _ _ Hstay) in Ho. rewrite Ho.
  split_and!; [done|apply serve_published|apply serve_notifications].
Qed.

Lemma subscriber_observes_every_event_once_witness :
  let rs0 := [push "old"] in
  let rs := [push "a"; SubscribeNewNotification; push "b"; Disconnect 1;
             QueryNotifications; push "a"] in
  let s1 := state (Subscription.subscribe (state (serve rs0 init))) in
  stays 0 rs = true
  /\ observed 0 (state (serve rs s1))
     = [{| label := "a" |}; {| label := "b" |}; {| label := "a" |}].
Proof.
  split; [reflexivity|].
  apply (subscriber_observes_every_event_once
           [push "old"]
           [push "a"; SubscribeNewNotification; push "b"; Disconnect 1;
            QueryNotifications; push "a"]).
  reflexivity.
Defined.

(** C6: a subscription opened in any reachable state starts with nothing
    to deliver, whatever the store already holds, and its handle was not
    in use before; from then on, whatever requests follow, what it has
    been sent is a prefix of the notifications published after it was
    opened (those up to its disconnection), so never one of the backlog. *)
Theorem no_backlog_on_subscribe (rs0 rs : list Request) :
  let s0 := state (serve rs0 init) in
  let h := result (Subscription.subscribe s0) in
  let s1 := state (Subscription.subscribe s0) in
  notifications s1 = appended rs0
  /\ pubsub s0 !! h = None
  /\ observed h s1 = []
  /\ observed h (state (serve rs s1)) = appended (until_disconnect h rs)
  /\ observed h (state (serve rs s1)) `prefix_of` appended rs
  /\ notifications (state (serve rs s1)) = appended rs0 ++ appended rs.
Proof.
  cbn zeta.
  destruct (subscription_observed (state (serve rs0 init)) rs) as [Ho _].
  split_and!.
  - change (notifications (state (serve rs0 init)) = appended rs0).
    by rewrite serve_notifications.
  - apply subscribe_fresh_handle.
  - by rewrite (observed_lookup _ _ _ (subscribe_channel _)).
  - exact Ho.
  - rewrite Ho. apply appended_prefix, until_disconnect_prefix.
  - rewrite serve_notifications. f_equal.
    change (notifications (state (serve rs0 init)) = appended rs0).
    by rewrite serve_notifications.
Qed.

Lemma unsubscribe_idempotent h (b : PubSub.t) :
  PubSub.unsubscribe h (PubSub.unsubscribe h b) = PubSub.unsubscribe h b.
Proof.
  unfold PubSub.unsubscribe. rewrite list_alter_alter_eq.
  apply list_alter_ext; [|done]. by intros [].
Qed.

Lemma unsubscribe_unknown h (b : PubSub.t) :
  length b <= h -> PubSub.unsubscribe h b = b.
Proof.
  intros Hh. apply list_eq. intros i. unfold PubSub.unsubscribe.
  destruct (decide (i = h)) as [->|Hne].
  - rewrite list_lookup_alter, decide_True by done.
    by rewrite (proj2 (lookup_ge_None b h)).
  - by rewrite list_lookup_alter_ne.
Qed.

(** C7: once the transport has ended a subscription whose handle was
    issued, whatever the server handles afterwards, nothing further is
    delivered to its channel and the channel stays unregistered; ending it
    again is answered like the first time and changes nothing, and so does
    ending a handle that was never issued. *)
Theorem unsubscribe_is_final_and_idempotent
        (s : Server) (h k : nat) (rs : list Request) :
  h < length (pubsub s) ->
  let s' := state (execute (Disconnect h) s) in
  observed h (state (serve rs s')) = observed h s
  /\ active h (state (serve rs s')) = false
  /\ result (execute (Disconnect h) s) = Closed
  /\ result (execute (Disconnect h) s') = Closed
  /\ state (execute (Disconnect h) s') = s'
  /\ state (execute (Disconnect (length (pubsub s) + k)) s) = s
  /\ result (execute (Disconnect (length (pubsub s) + k)) s) = Closed.
Proof.
  cbn zeta. intros Hh.
  destruct (lookup_lt_is_Some_2 _ _ Hh) as [c Hc].
  pose proof (execute_channel (Disconnect h) s h c Hc) as Hc'.
  cbn [channel_step] in Hc'. rewrite Nat.eqb_refl in Hc'.
  destruct (serve_closed rs _ h _ Hc' eq_refl) as (c' & Hc'' & Hl & Hq).
  split_and!; try done.
  - by rewrite (observed_lookup _ _ _ Hc''), (observed_lookup _ _ _ Hc), Hq.
  - by rewrite (active_lookup _ _ _ Hc'').
  - cbn. by rewrite unsubscribe_idempotent.
  - cbn. rewrite unsubscribe_unknown by lia. by destruct s.
Qed.

Lemma unsubscribe_is_final_and_idempotent_witness :
  let s := state (serve [SubscribeNewNotification; push "a"] init) in
  let s' := state (execute (Disconnect 0) s) in
  0 < length (pubsub s)
  /\ observed 0 (state (serve [push "b"; Disconnect 0; push "c"] s'))
     = [{| label := "a" |}].
Proof.
  split; [cbn; lia|].
  apply (unsubscribe_is_final_and_idempotent
           (state (serve [SubscribeNewNotification; push "a"] init))
           0 0 [push "b"; Disconnect 0; push "c"]).
  cbn; lia.
Defined.

(** ** The fixed topic *)

Lemma filter_none {A} (P : A -> Prop) `{!forall x, Decision (P x)} (l : list A) :
  Forall (fun x => ~ P x) l -> filter P l = [].
Proof.
  induction 1 as [|x l Hx _ IH]; [done|]. by rewrite filter_cons_False.
Qed.

Lemma registered_single_topic (b : PubSub.t) t h :
  single_topic b ->
  from_option (PubSub.registered t) false (b !! h)
  = String.eqb NOTIFICATION_SUBSCRIPTION_TOPIC t && PubSub.live h b.
Proof.
  intros Hs. unfold PubSub.live. destruct (b !! h) as [c|] eqn:Hc; cbn.
  - unfold single_topic in Hs. rewrite Forall_lookup in Hs.
    unfold PubSub.registered. rewrite (Hs _ _ Hc). apply andb_comm.
  - by rewrite andb_false_r.
Qed.

Lemma registry_single_topic (b : PubSub.t) t :
  single_topic b ->
  PubSub.registry t b
  = if String.eqb NOTIFICATION_SUBSCRIPTION_TOPIC t
    then filter (fun h => PubSub.live h b = true) (seq 0 (length b))
    else [].
Proof.
  intros Hs. unfold PubSub.registry.
  destruct (String.eqb NOTIFICATION_SUBSCRIPTION_TOPIC t) eqn:Et.
  - apply list_filter_iff. intros h.
    by rewrite (registered_single_topic b t h Hs), Et.
  - apply filter_none, Forall_forall. intros h _.
    by rewrite (registered_single_topic b t h Hs), Et.
Qed.

(** C10: over any run of the server, every [publish] and every
    [asyncIterator] call names the fixed topic ['newNotifications'];
    every channel of the broker is on that topic; the registry of that
    topic is the whole set of live channels and the registry of any other
    topic is empty; so each published notification goes to every channel
    that is registered at all. *)
Theorem one_fixed_topic (rs : list Request) (t : Topic) (l : string) (h : nat) :
  let s := state (serve rs init) in
  Forall (fun t' => t' = NOTIFICATION_SUBSCRIPTION_TOPIC)
         (topics (effects (serve rs init)))
  /\ single_topic (pubsub s)
  /\ PubSub.registry t (pubsub s)
     = (if String.eqb NOTIFICATION_SUBSCRIPTION_TOPIC t
        then filter (fun h' => active h' s = true) (seq 0 (length (pubsub s)))
        else [])
  /\ observed h (state (execute (push l) s))
     = observed h s ++ (if active h s then [{| label := l |}] else [])
  /\ topics (effects (execute (push l) s)) = [NOTIFICATION_SUBSCRIPTION_TOPIC]
  /\ topics (effects (execute SubscribeNewNotification s))
     = [NOTIFICATION_SUBSCRIPTION_TOPIC].
Proof.
  cbn zeta. pose proof (reachable_single_topic rs) as Hs. split_and!.
  - apply serve_topics.
  - exact Hs.
  - by apply registry_single_topic.
  - by apply push_observed.
  - done.
  - done.
Qed.

(** ** The server before and after subscriptions *)

Lemma execute_to_v2 r s :
  match to_v2 r with
  | Some r2 =>
      result (execute r s) = (V2.execute r2 (notifications s)).1
      /\ notifications (state (execute r s)) = (V2.execute r2 (notifications s)).2
      /\ answers_operation (result (execute r s)) = true
  | None =>
      notifications (state (execute r s)) = notifications s
      /\ answers_operation (result (execute r s)) = false
  end.
Proof.
  destruct r as [|v| |h]; cbn; try done.
  destruct (coerce_args v); cbn; done.
Qed.

(** Adding the broker changed no answer to a query or a mutation: over
    any run of the final server, from any state, the answers to its
    queries and mutations are, in order, the answers the second version
    gives to those same queries and mutations from the same stored
    sequence, and the two stored sequences end up equal; subscriptions
    and disconnections in between make no difference. *)
Theorem final_server_refines_second_version (rs : list Request) (s : Server) :
  filter (fun r => answers_operation r = true) (result (serve rs s))
  = (V2.serve (omap to_v2 rs) (notifications s)).1
  /\ notifications (state (serve rs s))
     = (V2.serve (omap to_v2 rs) (notifications s)).2.
Proof.
  revert s. induction rs as [|r rs IH]; intros s; [done|].
  rewrite serve_cons_result, serve_cons_state.
  pose proof (execute_to_v2 r s) as Hr.
  destruct (IH (state (execute r s))) as [IH1 IH2].
  cbn [omap list_omap]. fold (omap to_v2 rs) in *.
  destruct (to_v2 r) as [r2|].
  - destruct Hr as (Hres & Hst & Hop).
    rewrite filter_cons_True by done. cbn [V2.serve].
    rewrite Hst in IH1, IH2.
    destruct (V2.execute r2 (notifications s)) as [x ns1]; cbn in *.
    destruct (V2.serve (omap to_v2 rs) ns1) as [xs ns2]; cbn in *.
    by rewrite Hres, IH1, IH2.
  - destruct Hr as [Hst Hop].
    rewrite filter_cons_False by (rewrite Hop; done).
    rewrite Hst in IH1, IH2. by rewrite IH1, IH2.
Qed.

(** A query sees exactly the mutations handled before it: in any run,
    from any state, the answer to a [notifications] query is the stored
    sequence of the start followed by the notifications appended by the
    requests that precede the query, and by none that follow it. *)
Theorem query_sees_earlier_mutations (rs : list Request) (s : Server) (i : nat) :
  rs !! i = Some QueryNotifications ->
  result (serve rs s) !! i
  = Some (DataNotifications (notifications s ++ appended (take i rs))).
Proof.
  revert s i. induction rs as [|r rs IH]; intros s i Hi; [done|].
  rewrite serve_cons_result. destruct i as [|i]; cbn in Hi.
  - injection Hi as ->. cbn. by rewrite app_nil_r.
  - cbn [lookup list_lookup take]. fold (take i rs).
    change ((result (execute r s) :: result (serve rs (state (execute r s))))
              !! S i)
      with (result (serve rs (state (execute r s))) !! i).
    rewrite (IH _ _ Hi), execute_notifications, appended_cons.
    by rewrite app_assoc.
Qed.

Lemma query_sees_earlier_mutations_witness :
  [push "a"; SubscribeNewNotification; QueryNotifications; push "b"] !! 2
  = Some QueryNotifications
  /\ result (serve [push "a"; SubscribeNewNotification; QueryNotifications;
                    push "b"]
                   {| notifications := [{| label := "old" |}];
                      pubsub := PubSub.create |}) !! 2
     = Some (DataNotifications [{| label := "old" |}; {| label := "a" |}]).
Proof.
  split; [reflexivity|].
  apply (query_sees_earlier_mutations
           [push "a"; SubscribeNewNotification; QueryNotifications; push "b"]
           {| notifications := [{| label := "old" |}];
              pubsub := PubSub.create |}
           2).
  reflexivity.
Defined.

(** ** The web application and the server together *)

Lemma client_run_app es1 es2 sys :
  client_run (es1 ++ es2) sys = client_run es2 (client_run es1 sys).
Proof. revert sys. induction es1 as [|e es1 IH]; intros sys; [done|]. apply IH. Qed.

Lemma client_run_edits values sys :
  server (client_run (Edit <$> values) sys) = server sys
  /\ inflight (client_run (Edit <$> values) sys) = inflight sys
  /\ component (client_run (Edit <$> values) sys)
     = from_option (fun v => {| PushNotification.label := v |})
                   (component sys) (last values).
Proof.
  revert sys. induction values as [|v values IH]; intros sys; [done|].
  cbn [fmap list_fmap client_run]. fold (Edit <$> values).
  destruct (IH (client_step (Edit v) sys)) as (-> & -> & ->).
  split_and!; [done|done|]. rewrite last_cons. by destruct (last values).
Qed.

Lemma lookup_middle_length {A} (l1 l2 : list A) x :
  (l1 ++ x :: l2) !! length l1 = Some x.
Proof. by rewrite list_lookup_middle. Qed.

Lemma delete_middle_length {A} (l1 l2 : list A) x :
  delete (length l1) (l1 ++ x :: l2) = l1 ++ l2.
Proof.
  induction l1 as [|y l1 IH]; [done|]. cbn. by f_equal.
Qed.

(** The answer to the request of a click, whenever it comes. *)
Lemma arrive_clicked srv st st0 l1 l2 :
  client_step (Arrive (length l1))
    {| server := srv; component := st;
       inflight := l1 ++ PushNotification._pushNotification st0 :: l2 |}
  = {| server := state (execute (push (PushNotification.label st0)) srv);
       component := PushNotification.initial;
       inflight := l1 ++ l2 |}.
Proof.
  unfold client_step. cbn [inflight].
  rewrite lookup_middle_length, delete_middle_length. done.
Qed.

Lemma fail_clicked srv st st0 l1 l2 :
  client_step (Fail (length l1))
    {| server := srv; component := st;
       inflight := l1 ++ PushNotification._pushNotification st0 :: l2 |}
  = {| server := srv; component := st; inflight := l1 ++ l2 |}.
Proof.
  unfold client_step. cbn [inflight].
  rewrite lookup_middle_length, delete_middle_length. done.
Qed.

Lemma click_step srv st fl :
  client_step Click {| server := srv; component := st; inflight := fl |}
  = {| server := srv; component := st;
       inflight := fl ++ [PushNotification._pushNotification st] |}.
Proof. done. Qed.

(** Submitting stores the text of the moment of the click: from any state
    of page and server, after a click, any edits of the input, and the
    arrival of the click's answer, the server's stored sequence has grown
    by exactly one notification whose label is the text the input held at
    the click (the empty string if it held none); the input is empty
    again, so what was typed while the request was on its way is gone;
    and the calls waiting before are still waiting. *)
Theorem submit_stores_text_at_click (sys : System) (values : list string) :
  let i := length (inflight sys) in
  let sys' := client_run (Click :: (Edit <$> values) ++ [Arrive i]) sys in
  notifications (server sys')
  = notifications (server sys)
    ++ [{| label := PushNotification.label (component sys) |}]
  /\ component sys' = PushNotification.initial
  /\ inflight sys' = inflight sys.
Proof.
  cbn zeta. cbn [client_run]. rewrite client_run_app. cbn [client_run].
  destruct (client_run_edits values (client_step Click sys)) as (Hs & Hi & _).
  destruct (client_run (Edit <$> values) (client_step Click sys))
    as [srv st fl]. cbn in Hs, Hi. subst srv fl.
  rewrite arrive_clicked, app_nil_r. by split_and!.
Qed.

(** Nothing keeps a second click from sending the same text again: two
    clicks in a row, answered later in either order, store the text of
    the input twice. *)
Theorem double_click_stores_twice (sys : System) (i : nat) :
  let n := length (inflight sys) in
  let sys' := client_run [Click; Click; Arrive (n + i); Arrive n] sys in
  i <= 1 ->
  notifications (server sys')
  = notifications (server sys)
    ++ [{| label := PushNotification.label (component sys) |};
        {| label := PushNotification.label (component sys) |}]
  /\ inflight sys' = inflight sys.
Proof.
  cbn zeta. intros Hi. destruct sys as [srv st fl].
  cbn [client_run]. rewrite !click_step. cbn [inflight component server].
  assert (i = 0 \/ i = 1) as [->| ->] by lia.
  - rewrite Nat.add_0_r, <- app_assoc. cbn [app].
    rewrite arrive_clicked, arrive_clicked.
    cbn. rewrite app_nil_r, <- app_assoc. done.
  - replace (length fl + 1)
      with (length (fl ++ [PushNotification._pushNotification st]))
      by (rewrite length_app; cbn; lia).
    rewrite arrive_clicked, app_nil_r, arrive_clicked.
    cbn. rewrite app_nil_r, <- app_assoc. done.
Qed.

Lemma double_click_stores_twice_witness :
  let sys := {| server := init;
                component := {| PushNotification.label := "hi" |};
                inflight := [] |} in
  1 <= 1
  /\ notifications
       (server (client_run [Click; Click; Arrive 1; Arrive 0] sys))
     = [{| label := "hi" |}; {| label := "hi" |}].
Proof.
  split; [lia|].
  apply (double_click_stores_twice
           {| server := init;
              component := {| PushNotification.label := "hi" |};
              inflight := [] |} 1).
  lia.
Defined.

(** A lost request loses nothing on the page: from any state, after a
    click, any edits, and the loss of the click's request, the server is
    as it was, the input holds what the last edit left (it is not
    cleared), and the calls waiting before are still waiting. *)
Theorem lost_request_keeps_text (sys : System) (values : list string) :
  let i := length (inflight sys) in
  let sys' := client_run (Click :: (Edit <$> values) ++ [Fail i]) sys in
  server sys' = server sys
  /\ component sys' = component (client_run (Edit <$> values) sys)
  /\ inflight sys' = inflight sys.
Proof.
  cbn zeta. cbn [client_run]. rewrite client_run_app. cbn [client_run].
  destruct (client_run_edits values (client_step Click sys)) as (Hs & Hi & Hc).
  destruct (client_run_edits values sys) as (_ & _ & Hc0).
  rewrite Hc0.
  destruct (client_run (Edit <$> values) (client_step Click sys))
    as [srv st fl]. cbn in Hs, Hi, Hc. subst srv fl.
  rewrite fail_clicked, app_nil_r. by split_and!.
Qed.

Lemma client_step_server e sys :
  server (client_step e sys)
  = from_option (fun r => state (execute r (server sys))) (server sys)
                (request_of e sys).
Proof.
  destruct e as [v| |i|i|r]; cbn; try done.
  - by destruct (inflight sys !! i).
  - by destruct (inflight sys !! i).
Qed.

(** The page reaches the server only through the mutation: over any run
    of events, from any state, the server ends in the state it reaches by
    handling, in order, one [pushNotification] request per answered call
    (with that call's label) and the requests of the other clients;
    edits, clicks not yet answered and lost requests leave it alone. *)
Theorem page_reaches_server_by_requests (es : list Event) (sys : System) :
  server (client_run es sys) = state (serve (requests es sys) (server sys))
  /\ Forall (fun r => Remote r ∈ es \/ exists l, r = push l) (requests es sys).
Proof.
  revert sys. induction es as [|e es IH]; intros sys; [by split|].
  destruct (IH (client_step e sys)) as [IHs IHf]. split.
  - cbn [client_run requests]. rewrite IHs, client_step_server.
    destruct (request_of e sys) as [r|]; cbn [from_option].
    + change (option_list (Some r)) with [r]. cbn [app].
      by rewrite serve_cons_state.
    + done.
  - cbn [requests]. apply Forall_app. split.
    + destruct e as [v| |i|i|r]; cbn; try by constructor.
      * destruct (inflight sys !! i) as [a|]; cbn; [|by constructor].
        constructor; [|constructor]. right. by eexists.
      * constructor; [|constructor]. left. apply list_elem_of_here.
    + eapply Forall_impl; [exact IHf|]. intros r [Hr|Hr].
      * left. by apply list_elem_of_further.
      * by right.
Qed.

Lemma waiting_settle sys i a e :
  inflight sys !! i = Some a ->
  e = Arrive i \/ e = Fail i ->
  waiting sys
  ≡ₚ PushNotification.var_label (PushNotification.variables_of a)
     :: waiting (client_step e sys).
Proof.
  intros Ha He. unfold waiting.
  rewrite (delete_Permutation _ _ _ Ha) at 1.
  destruct He as [-> | ->]; unfold client_step; by rewrite Ha.
Qed.

Lemma client_step_no_call sys i e :
  inflight sys !! i = None ->
  e = Arrive i \/ e = Fail i ->
  client_step e sys = sys.
Proof. intros Ha [-> | ->]; unfold client_step; by rewrite Ha. Qed.

(** Clicks are neither lost nor multiplied by the page: over any run of
    events, from any state, the labels of the calls waiting at the start
    together with the texts the input held at the clicks of the run are,
    up to order, the labels of the calls the run settled (answered or
    lost) together with the labels of the calls still waiting. *)
Theorem clicks_are_conserved (es : list Event) (sys : System) :
  waiting sys ++ clicked es sys
  ≡ₚ settled es sys ++ waiting (client_run es sys).
Proof.
  revert sys. induction es as [|e es IH]; intros sys.
  - cbn. by rewrite app_nil_r.
  - cbn [clicked settled client_run]. specialize (IH (client_step e sys)).
    destruct e as [v| |i|i|r]; cbn [app].
    + exact IH.
    + rewrite <- IH. unfold waiting. cbn. rewrite fmap_app, <- app_assoc. done.
    + destruct (inflight sys !! i) as [a|] eqn:Ha;
        unfold option_list; cbn [fmap option_fmap option_map option_rect app].
      * rewrite <- IH. rewrite (waiting_settle sys i a (Arrive i) Ha); [reflexivity|auto].
      * pose proof (client_step_no_call sys i (Arrive i) Ha (or_introl eq_refl)) as E.
        rewrite E in *. exact IH.
    + destruct (inflight sys !! i) as [a|] eqn:Ha;
        unfold option_list; cbn [fmap option_fmap option_map option_rect app].
      * rewrite <- IH. rewrite (waiting_settle sys i a (Fail i) Ha); [reflexivity|auto].
      * pose proof (client_step_no_call sys i (Fail i) Ha (or_intror eq_refl)) as E.
        rewrite E in *. exact IH.
    + exact IH.
Qed.

(** No request of [es] is lost and none comes from another client. *)
Lemma appended_requests_local es sys :
  forallb (fun e => match e with Fail _ | Remote _ => false | _ => true end) es
  = true ->
  appended (requests es sys) = Build_Notification <$> settled es sys.
Proof.
  revert sys. induction es as [|e es IH]; intros sys Hl; [done|].
  cbn [forallb] in Hl. apply andb_prop in Hl as [He Hl].
  cbn [requests settled]. unfold appended in *.
  rewrite omap_app, fmap_app, (IH _ Hl). f_equal.
  destruct e as [v| |i|i|r]; try done.
  cbn. by destruct (inflight sys !! i).
Qed.

(** When the page has settled, the store holds what was clicked: if no
    call is waiting at the start or at the end of a run of events in which
    no request is lost and no other client intervenes, then the server's
    stored sequence has grown by notifications whose labels are, up to
    the order the requests arrived in, exactly the texts the input held
    at the clicks, one per click. *)
Theorem settled_page_stored_every_click (es : list Event) (sys : System) :
  inflight sys = [] ->
  inflight (client_run es sys) = [] ->
  forallb (fun e => match e with Fail _ | Remote _ => false | _ => true end) es
  = true ->
  exists added,
    notifications (server (client_run es sys))
    = notifications (server sys) ++ added
    /\ label <$> added ≡ₚ clicked es sys.
Proof.
  intros H0 H1 Hl. exists (appended (requests es sys)). split.
  - destruct (page_reaches_server_by_requests es sys) as [-> _].
    apply serve_notifications.
  - rewrite (appended_requests_local _ _ Hl), <- list_fmap_compose.
    rewrite (list_fmap_ext _ id (settled es sys)) by done.
    rewrite list_fmap_id.
    pose proof (clicks_are_conserved es sys) as Hp.
    unfold waiting in Hp. rewrite H0, H1 in Hp. cbn in Hp.
    rewrite app_nil_r in Hp. by symmetry.
Qed.

Lemma settled_page_stored_every_click_witness :
  let es := [Edit "a"; Click; Edit "b"; Click; Arrive 1; Edit "c"; Arrive 0] in
  let sys := {| server := init; component := PushNotification.initial;
                inflight := [] |} in
  notifications (server (client_run es sys))
  = [{| label := "b" |}; {| label := "a" |}]
  /\ clicked es sys = ["a"; "b"]
  /\ exists added,
       notifications (server (client_run es sys))
       = notifications (server sys) ++ added
       /\ label <$> added ≡ₚ clicked es sys.
Proof.
  split; [reflexivity|]. split; [reflexivity|].
  apply (settled_page_stored_every_click
           [Edit "a"; Click; Edit "b"; Click; Arrive 1; Edit "c"; Arrive 0]
           {| server := init; component := PushNotification.initial;
              inflight := [] |});
    reflexivity.
Defined.

(** ** Toasts *)

Lemma toasts_of_payloads (ps : list Payload) :
  toasts (props_of <$> ps) = inr (label <$> (newNotification <$> ps)).
Proof.
  induction ps as [|p ps IH]; [done|].
  cbn [fmap list_fmap toasts]. fold (props_of <$> ps).
  fold (newNotification <$> ps). rewrite IH. done.
Qed.

(** Each notification published while a page is subscribed makes exactly
    one toast with its label: when the wrapped [App] receives one props
    update per payload delivered on a subscription that was opened in any
    reachable state and is not ended by the requests that follow, no
    update throws and the toasts shown are, in order, the labels of the
    notifications those requests appended. *)
Theorem subscriber_toasts_every_label (rs0 rs : list Request) :
  let s0 := state (serve rs0 init) in
  let h := result (Subscription.subscribe s0) in
  let s1 := state (Subscription.subscribe s0) in
  stays h rs = true ->
  toasts (props_of <$> PubSub.queue h (pubsub (state (serve rs s1))))
  = inr (label <$> appended rs).
Proof.
  cbn zeta. intros Hstay.
  destruct (subscription_observed (state (serve rs0 init)) rs) as [Ho _].
  rewrite (until_disconnect_stays _ _ Hstay) in Ho.
  rewrite toasts_of_payloads. unfold observed in Ho. by rewrite Ho.
Qed.

Lemma subscriber_toasts_every_label_witness :
  let s1 := state (Subscription.subscribe (state (serve [push "old"] init))) in
  let rs := [push "a"; QueryNotifications; PushNotification None; push "b"] in
  stays 0 rs = true
  /\ toasts (props_of <$> PubSub.queue 0 (pubsub (state (serve rs s1))))
     = inr ["a"; "b"].
Proof.
  split; [reflexivity|].
  apply (subscriber_toasts_every_label
           [push "old"]
           [push "a"; QueryNotifications; PushNotification None; push "b"]).
  reflexivity.
Defined.
